(* ====================================================================== *)
(* Robust estimators of notebook 4.2: compute_median, compute_iqr and     *)
(* compute_mad.                                                           *)
(*                                                                        *)
(* A pandas Series is modelled by the sequence of its values: the code    *)
(* reads a Series only by position (sort_values, len, .iloc, elementwise  *)
(* arithmetic), never by index label.  A Python exception is an explicit  *)
(* result: the only one these functions can raise on a numeric Series is  *)
(* the IndexError of an integer .iloc that is out of bounds.              *)
(*                                                                        *)
(* The functions are embedded twice.                                      *)
(*  - Over a totally ordered field R, where +, - and / are exact: this    *)
(*    settles which positions are read, what is raised and what depends   *)
(*    on the order of the input.                                          *)
(*  - In Module Machine, over the arithmetic of the Series' dtype (the    *)
(*    sum of two scalars may wrap around or overflow, results are float64 *)
(*    values): this is where bounds on the results are stated, under the  *)
(*    condition that the sums involved do not wrap or overflow.  The      *)
(*    instances are exact arithmetic, the dtype uint8 and the dtype       *)
(*    float64 (IEEE binary64).                                            *)
(* ====================================================================== *)

From HB Require Import structures.
From mathcomp Require Import boot order algebra.
From Stdlib Require Import Lia PrimFloat.

Set Implicit Arguments.
Unset Strict Implicit.
Unset Printing Implicit Defensive.

Import Order.TTheory GRing.Theory Num.Theory.
Local Open Scope ring_scope.

(* ---------------------------------------------------------------------- *)
(* Results of a Python call: a value, or a raised exception.              *)
(* ---------------------------------------------------------------------- *)

Inductive exception : Set := IndexError.

Inductive result (A : Type) : Type :=
  | Ok of A
  | Raise of exception.

Arguments Ok {A} _.
Arguments Raise {A} _.

Definition bind (A B : Type) (r : result A) (k : A -> result B) : result B :=
  match r with
  | Ok v => k v
  | Raise e => Raise e
  end.

Notation "x <- r ;; k" := (bind r (fun x => k))
  (at level 100, r at next level, right associativity).

(* ---------------------------------------------------------------------- *)
(* The estimators, as in cell 4 of the notebook.                          *)
(* ---------------------------------------------------------------------- *)

Section Estimators.

Variable R : realFieldType.

Definition Series : Type := seq R.

(* a.sort_values(): the values in ascending order.  Whatever algorithm
   pandas runs, the outcome is the one ascending rearrangement of the
   values (sort_values_unique below), computed here by merge sort. *)
Definition sort_values (a : Series) : Series := sort <=%R a.

(* a.iloc[key] for an integer key.  pandas refuses a key outside
   [-len, len) with IndexError; a negative key counts from the end. *)
Definition iloc (a : Series) (key : int) : result R :=
  let len_axis : int := (size a)%:Z in
  if (len_axis <= key) || (key < - len_axis) then Raise IndexError
  else Ok (nth 0 a (absz (if key < 0 then key + len_axis else key))).

(* a.iloc[:stop] and a.iloc[start:] for bounds that are not negative:
   a slice is clipped to the Series and never raises. *)
Definition iloc_to (a : Series) (stop : nat) : Series := take stop a.
Definition iloc_from (a : Series) (start : nat) : Series := drop start a.

(*  def compute_median(a):
        sorted_a = a.sort_values()
        idx = len(sorted_a) // 2
        if len(a)%2 == 1:
            median = sorted_a.iloc[idx]
        else:
            median = (sorted_a.iloc[idx-1] + sorted_a.iloc[idx]) / 2
        return float(median)                                              *)
Definition compute_median (a : Series) : result R :=
  let sorted_a := sort_values a in
  let idx := (size sorted_a %/ 2)%N in
  if (size a %% 2 == 1)%N then
    median <- iloc sorted_a idx%:Z ;;
    Ok median
  else
    lo <- iloc sorted_a (idx%:Z - 1) ;;
    hi <- iloc sorted_a idx%:Z ;;
    Ok ((lo + hi) / 2%:R).

(*  def compute_iqr(a):
        sorted_a = a.sort_values()
        idx = len(sorted_a) // 2
        if len(a)%2 == 1:
            q1 = compute_median(sorted_a.iloc[:idx])
            q3 = compute_median(sorted_a.iloc[idx+1:])
        else:
            q1 = compute_median(sorted_a.iloc[:idx])
            q3 = compute_median(sorted_a.iloc[idx:])
        return q3 - q1                                                    *)
Definition compute_iqr (a : Series) : result R :=
  let sorted_a := sort_values a in
  let idx := (size sorted_a %/ 2)%N in
  if (size a %% 2 == 1)%N then
    q1 <- compute_median (iloc_to sorted_a idx) ;;
    q3 <- compute_median (iloc_from sorted_a idx.+1) ;;
    Ok (q3 - q1)
  else
    q1 <- compute_median (iloc_to sorted_a idx) ;;
    q3 <- compute_median (iloc_from sorted_a idx) ;;
    Ok (q3 - q1).

(*  def compute_mad(a):
        median = compute_median(a)
        deviations = abs(a - median)
        return compute_median(deviations)                                 *)
Definition abs_deviations (a : Series) (median : R) : Series :=
  [seq `|x - median| | x <- a].

Definition compute_mad (a : Series) : result R :=
  median <- compute_median a ;;
  let deviations := abs_deviations a median in
  compute_median deviations.

(* ---------------------------------------------------------------------- *)
(* The estimators as the specification words them (sections 4.1 to 4.3),  *)
(* on plain sorted sequences, with no failure case.                       *)
(* ---------------------------------------------------------------------- *)

Definition spec_median (S : seq R) : R :=
  let sorted := sort <=%R S in
  let n := size S in
  let idx := (n %/ 2)%N in
  if odd n then nth 0 sorted idx
  else (nth 0 sorted (idx - 1) + nth 0 sorted idx) / 2%:R.

Definition spec_iqr (S : seq R) : R :=
  let sorted := sort <=%R S in
  let n := size S in
  let idx := (n %/ 2)%N in
  let q1 := spec_median (take idx sorted) in
  let q3 := if odd n then spec_median (drop idx.+1 sorted)
            else spec_median (drop idx sorted) in
  q3 - q1.

Definition spec_mad (S : seq R) : R :=
  let m := spec_median S in
  spec_median [seq `|x - m| | x <- S].

(* A predicate kept by the average of two values. *)
Definition mid_closed (P : pred R) : Prop :=
  forall x y : R, P x -> P y -> P ((x + y) / 2%:R).

End Estimators.

(* ---------------------------------------------------------------------- *)
(* The library estimator of cell 1.  statsmodels' mad is imported as      *)
(* mad_c and is not part of the notebook: it is a parameter here.         *)
(* ---------------------------------------------------------------------- *)

Section LibraryMad.

Variable R : realFieldType.
Variable mad_c : Series R -> R -> result R.

(*  # set the scaling factor to 1
    def mad(a):
        return mad_c(a, c=1)                                              *)
Definition mad (a : Series R) : result R := mad_c a 1.

End LibraryMad.

(* Rational samples, for runs of the estimators. *)
Definition sample (s : seq nat) : Series rat := [seq n%:R | n <- s].

(* ---------------------------------------------------------------------- *)
(* Notions used to state further properties of the estimators.            *)
(* ---------------------------------------------------------------------- *)

Section Notions.

Variable R : realFieldType.

(* What compute_median reads off a Series that is in ascending order
   already: the value at idx, or the average of those at idx-1 and idx. *)
Definition middle (s : seq R) : R :=
  let idx := (size s %/ 2)%N in
  if odd (size s) then nth 0 s idx
  else (nth 0 s (idx - 1) + nth 0 s idx) / 2%:R.

End Notions.

(* ====================================================================== *)
(* The estimators over the arithmetic of the Series' dtype.               *)
(* ====================================================================== *)

Module Machine.

(* The arithmetic of Python floats and of a float64 Series: the order
   used to sort, x + y, x / 2, x - y, abs(x) and 0.0. *)
Record floats (F : Type) : Type := Floats {
  lef : rel F;
  fadd : F -> F -> F;
  fdiv2 : F -> F;
  fsub : F -> F -> F;
  fabs : F -> F;
  fzero : F
}.

(* The arithmetic of a Series with values in T, as the estimators use it:
   the order sort_values sorts by, the sum x + y of two scalars of the
   dtype (it wraps around for a fixed-width integer dtype), the true
   division x / 2 (a float64), float(x), and x - m for a Python float m
   (a float64). *)
Record dtype (T F : Type) : Type := Dtype {
  le : rel T;
  add : T -> T -> T;
  div2 : T -> F;
  to_float : T -> F;
  sub_float : T -> F -> F
}.

Section Estimators.

Variables (T F : Type) (fl : floats F) (D : dtype T F).

(* A float64 Series: float() is the identity on its values. *)
Definition float64 : dtype F F :=
  Dtype (lef fl) (fadd fl) (fdiv2 fl) id (fsub fl).

(* a.sort_values() *)
Definition sort_values (a : seq T) : seq T := sort (le D) a.

(* a.iloc[key] for an integer key, as iloc above; the last case is not
   reached, the position being within the Series. *)
Definition iloc (a : seq T) (key : int) : result T :=
  let len_axis : int := (size a)%:Z in
  if (len_axis <= key) || (key < - len_axis) then Raise IndexError
  else
    match drop (absz (if key < 0 then key + len_axis else key)) a with
    | x :: _ => Ok x
    | [::] => Raise IndexError
    end.

(*  def compute_median(a):
        sorted_a = a.sort_values()
        idx = len(sorted_a) // 2
        if len(a)%2 == 1:
            median = sorted_a.iloc[idx]
        else:
            median = (sorted_a.iloc[idx-1] + sorted_a.iloc[idx]) / 2
        return float(median)                                              *)
Definition compute_median (a : seq T) : result F :=
  let sorted_a := sort_values a in
  let idx := (size sorted_a %/ 2)%N in
  if (size a %% 2 == 1)%N then
    median <- iloc sorted_a idx%:Z ;;
    Ok (to_float D median)
  else
    lo <- iloc sorted_a (idx%:Z - 1) ;;
    hi <- iloc sorted_a idx%:Z ;;
    Ok (div2 D (add D lo hi)).

(*  def compute_iqr(a):
        sorted_a = a.sort_values()
        idx = len(sorted_a) // 2
        if len(a)%2 == 1:
            q1 = compute_median(sorted_a.iloc[:idx])
            q3 = compute_median(sorted_a.iloc[idx+1:])
        else:
            q1 = compute_median(sorted_a.iloc[:idx])
            q3 = compute_median(sorted_a.iloc[idx:])
        return q3 - q1                                                    *)
Definition compute_iqr (a : seq T) : result F :=
  let sorted_a := sort_values a in
  let idx := (size sorted_a %/ 2)%N in
  if (size a %% 2 == 1)%N then
    q1 <- compute_median (take idx sorted_a) ;;
    q3 <- compute_median (drop idx.+1 sorted_a) ;;
    Ok (fsub fl q3 q1)
  else
    q1 <- compute_median (take idx sorted_a) ;;
    q3 <- compute_median (drop idx sorted_a) ;;
    Ok (fsub fl q3 q1).

End Estimators.

(*  def compute_mad(a):
        median = compute_median(a)
        deviations = abs(a - median)
        return compute_median(deviations)
    a - median is a float64 Series, whatever the dtype of a.              *)
Definition compute_mad (T F : Type) (fl : floats F) (D : dtype T F)
    (a : seq T) : result F :=
  median <- compute_median D a ;;
  let deviations := [seq fabs fl (sub_float D x median) | x <- a] in
  compute_median (float64 fl) deviations.

Section Notions.

Variables (T F : Type) (fl : floats F) (D : dtype T F).

(* (x + y) / 2 as compute_median computes it. *)
Definition avg (x y : T) : F := div2 D (add D x y).

(* What compute_median reads off a Series in ascending order. *)
Definition middle (x0 : T) (s : seq T) : F :=
  let idx := (size s %/ 2)%N in
  if odd (size s) then to_float D (nth x0 s idx)
  else avg (nth x0 s (idx - 1)) (nth x0 s idx).

(* No average of two values of S leaves the interval they span: for all
   x <= y in S, float(x) <= (x + y) / 2 <= float(y).  The check fails when
   a sum wraps around or overflows. *)
Definition averages_within (S : seq T) : bool :=
  allrel (fun x y => le D x y ==>
            lef fl (to_float D x) (avg x y) && lef fl (avg x y) (to_float D y))
    S S.

(* The averages of two values of S, and the check that the difference of
   two of them has the sign of their order: q1 <= q3 gives 0 <= q3 - q1. *)
Definition averages (S : seq T) : seq F := [seq avg x y | x <- S, y <- S].

Definition differences_signed (S : seq T) : bool :=
  allrel (fun q1 q3 => lef fl q1 q3 ==> lef fl (fzero fl) (fsub fl q3 q1))
    (averages S) (averages S).

(* min and max of the non-empty sequence x :: s. *)
Definition seq_min (x : T) (s : seq T) : T :=
  foldr (fun y z => if le D y z then y else z) x s.
Definition seq_max (x : T) (s : seq T) : T :=
  foldr (fun y z => if le D y z then z else y) x s.

(* The values of S within [lo, hi], and their number. *)
Definition within (lo hi : T) (S : seq T) : seq T :=
  [seq x <- S | le D lo x && le D x hi].

Definition count_within (lo hi : T) (S : seq T) : nat :=
  count (fun x => le D lo x && le D x hi) S.

End Notions.

End Machine.

(* ---------------------------------------------------------------------- *)
(* Three arithmetics.                                                     *)
(* ---------------------------------------------------------------------- *)

(* Exact arithmetic in an ordered field. *)
Definition exact_floats (R : realFieldType) : Machine.floats R :=
  Machine.Floats <=%R +%R (fun x => x / 2%:R) (fun x y => x - y) Num.norm 0.

Definition exact (R : realFieldType) : Machine.dtype R R :=
  Machine.float64 (exact_floats R).

(* The dtype uint8: values 0 .. 255, and x + y wraps around modulo 256.
   Every float64 the estimators compute from such values is a multiple of
   1/4 below 2^10 in absolute value, on which float64 arithmetic is exact:
   the float64 side is the exact arithmetic of rat. *)
Definition uint8 : Machine.dtype nat rat :=
  Machine.Dtype leq (fun x y => (x + y) %% 256)%N
    (fun x => x%:R / 2%:R) (fun x => x%:R) (fun x m => x%:R - m).

Definition uint8_floats : Machine.floats rat := exact_floats rat.

(* The dtype float64, in IEEE binary64 arithmetic.  sort_values puts the
   missing values (NaN) last. *)
Definition f64_le (x y : float) : bool :=
  PrimFloat.is_nan y || (~~ PrimFloat.is_nan x && PrimFloat.leb x y).

Definition ieee : Machine.floats float :=
  Machine.Floats f64_le PrimFloat.add (fun x => PrimFloat.div x 2%float)
    PrimFloat.sub PrimFloat.abs 0%float.

Definition binary64 : Machine.dtype float float := Machine.float64 ieee.

(* ====================================================================== *)
(* Properties.                                                            *)
(* ====================================================================== *)

Section EstimatorTheory.

Variable R : realFieldType.

(* ---------------------------------------------------------------------- *)
(* Positional access.                                                     *)
(* ---------------------------------------------------------------------- *)

Lemma iloc_nat (a : Series R) (k : nat) :
  (k < size a)%N -> iloc a k%:Z = Ok (nth 0 a k).
Proof.
move=> lt_k; rewrite /iloc lez_nat leqNgt lt_k /=.
by rewrite (ltez_natE, ltz_nat k 0).
Qed.

Lemma iloc_pred (a : Series R) (k : nat) :
  (0 < k)%N -> (k <= size a)%N -> iloc a (k%:Z - 1) = Ok (nth 0 a (k - 1)).
Proof.
case: k => [//|k] _ lt_k.
by rewrite -addn1 PoszD addrK addnK iloc_nat.
Qed.

Lemma iloc_nil (key : int) : iloc ([::] : Series R) key = Raise IndexError.
Proof.
rewrite /iloc /= oppr0.
by case: (lerP 0 key).
Qed.

(* ---------------------------------------------------------------------- *)
(* Sorting.                                                               *)
(* ---------------------------------------------------------------------- *)

Lemma size_sort_values (a : Series R) : size (sort_values a) = size a.
Proof. exact: size_sort. Qed.

Lemma sort_values_sorted (a : Series R) : sorted <=%R (sort_values a).
Proof. exact: (sort_sorted (@le_total _ R)). Qed.

Lemma perm_sort_values (a : Series R) : perm_eq (sort_values a) a.
Proof. by rewrite perm_sort. Qed.

Lemma sort_values_perm (a b : Series R) :
  perm_eq a b -> sort_values a = sort_values b.
Proof.
by move=> /(perm_sortP (@le_total _ R) (@le_trans _ R) (@le_anti _ R)).
Qed.

Lemma sort_values_unique (a s : Series R) :
  sorted <=%R s -> perm_eq s a -> s = sort_values a.
Proof.
move=> sorted_s /sort_values_perm <-.
by rewrite /sort_values sorted_sort //; apply: le_trans.
Qed.

(* ---------------------------------------------------------------------- *)
(* Arithmetic of idx = n // 2.                                            *)
(* ---------------------------------------------------------------------- *)

Lemma size_gt0 (a : Series R) : a != [::] -> (0 < size a)%N.
Proof. by case: a. Qed.

Lemma idx_lt (n : nat) : (0 < n)%N -> (n %/ 2 < n)%N.
Proof. by move=> n_gt0; rewrite ltn_Pdiv. Qed.

Lemma idx_gt0_even (n : nat) : (0 < n)%N -> ~~ odd n -> (0 < n %/ 2)%N.
Proof. by rewrite divn2 half_gt0; case: n => [|[|n]]. Qed.

Lemma idx_succ_lt_odd (n : nat) : (1 < n)%N -> odd n -> ((n %/ 2).+1 < n)%N.
Proof.
move=> n_gt1 odd_n; rewrite divn2 -[X in (_ < X)%N]odd_double_half odd_n.
by rewrite add1n ltnS -addnn -[X in (X < _)%N]addn0 ltn_add2l half_gt0.
Qed.

(* ---------------------------------------------------------------------- *)
(* compute_median against the median of section 4.1.                      *)
(* ---------------------------------------------------------------------- *)

Lemma compute_medianE (S : Series R) :
  S != [::] -> compute_median S = Ok (spec_median S).
Proof.
move=> /size_gt0 n_gt0.
rewrite /compute_median /spec_median size_sort_values modn2 eqb1.
case: ifPn => [_|even_n].
  by rewrite iloc_nat ?size_sort_values ?idx_lt.
rewrite iloc_pred ?size_sort_values ?idx_gt0_even ?leq_div //.
by rewrite iloc_nat ?size_sort_values ?idx_lt.
Qed.

Lemma compute_median_nil : compute_median ([::] : Series R) = Raise IndexError.
Proof. by []. Qed.

(* ---------------------------------------------------------------------- *)
(* Bounds on the median: a property shared by every element, and kept by  *)
(* the average of two values (mid_closed), holds of the median.           *)
(* ---------------------------------------------------------------------- *)

Lemma spec_median_all (P : pred R) (S : seq R) :
  mid_closed P -> S != [::] -> all P S -> P (spec_median S).
Proof.
move=> midP /size_gt0 n_gt0; rewrite -(all_sort P <=%R) => /all_nthP allP.
have lt_idx : (size S %/ 2 < size (sort <=%R S))%N by rewrite size_sort idx_lt.
rewrite /spec_median; case: ifP => _; first exact: allP.
apply: midP; apply: allP => //.
by rewrite subn1 (leq_ltn_trans (leq_pred _)).
Qed.

Lemma mid_closed_ge (b : R) : mid_closed (fun x => b <= x).
Proof.
move=> x y le_x le_y /=.
by rewrite ler_pdivlMr ?ltr0n // mulr_natr mulr2n lerD.
Qed.

Lemma spec_median_ge (b : R) (S : seq R) :
  S != [::] -> all (fun x => b <= x) S -> b <= spec_median S.
Proof. exact: (spec_median_all (@mid_closed_ge b)). Qed.

(* ---------------------------------------------------------------------- *)
(* The two halves of a sorted sequence.                                   *)
(* ---------------------------------------------------------------------- *)

Lemma lower_half_nonempty (a : Series R) :
  (1 < size a)%N -> take (size a %/ 2) (sort_values a) != [::].
Proof.
move=> n_gt1; rewrite -size_eq0 size_take_min size_sort_values.
by rewrite (minn_idPl (leq_div _ _)) -lt0n divn2 half_gt0.
Qed.

Lemma upper_half_nonempty (a : Series R) (k : nat) :
  (k < size a)%N -> drop k (sort_values a) != [::].
Proof.
by move=> lt_k; rewrite -size_eq0 size_drop size_sort_values subn_eq0 -ltnNge.
Qed.

(* ---------------------------------------------------------------------- *)
(* compute_iqr and compute_mad against sections 4.2 and 4.3.              *)
(* ---------------------------------------------------------------------- *)

Lemma compute_iqrE (S : Series R) :
  (1 < size S)%N -> compute_iqr S = Ok (spec_iqr S).
Proof.
move=> n_gt1; have n_gt0 := ltnW n_gt1.
rewrite /compute_iqr /spec_iqr /iloc_to /iloc_from size_sort_values modn2 eqb1.
rewrite (compute_medianE (lower_half_nonempty n_gt1)) /=.
by case: ifP => odd_n; rewrite compute_medianE //;
  apply: upper_half_nonempty; rewrite ?idx_succ_lt_odd ?idx_lt.
Qed.

Lemma compute_iqr_singleton (x : R) : compute_iqr [:: x] = Raise IndexError.
Proof. by []. Qed.

Lemma size_abs_deviations (a : Series R) (m : R) :
  size (abs_deviations a m) = size a.
Proof. exact: size_map. Qed.

Lemma abs_deviations_nonempty (a : Series R) (m : R) :
  a != [::] -> abs_deviations a m != [::].
Proof. by case: a. Qed.

Lemma abs_deviations_ge0 (a : Series R) (m : R) :
  all (fun x => 0 <= x) (abs_deviations a m).
Proof. by rewrite all_map; apply/allP => x _ /=; rewrite normr_ge0. Qed.

Lemma compute_madE (S : Series R) :
  S != [::] -> compute_mad S = Ok (spec_mad S).
Proof.
move=> nz; rewrite /compute_mad compute_medianE //=.
by rewrite compute_medianE // abs_deviations_nonempty.
Qed.

(* ---------------------------------------------------------------------- *)
(* The properties of the estimators.                                      *)
(* ---------------------------------------------------------------------- *)

(** C1: for a non-empty S, with srt the ascending sort of S (an ordered
    rearrangement of S) and idx = n // 2, compute_median returns srt[idx]
    when n is odd and (srt[idx-1] + srt[idx]) / 2 when n is even. *)
Theorem compute_median_sorted_middle (S : Series R) :
  S != [::] ->
  let srt := sort_values S in
  let n := size S in
  let idx := (n %/ 2)%N in
  [/\ sorted <=%R srt, perm_eq srt S
    & compute_median S =
      Ok (if odd n then nth 0 srt idx
          else (nth 0 srt (idx - 1) + nth 0 srt idx) / 2%:R)].
Proof.
move=> nz; split; first exact: sort_values_sorted.
  exact: perm_sort_values.
exact: compute_medianE.
Qed.

(** C2: for S of length n >= 2, with srt the ascending sort of S and
    idx = n // 2, compute_iqr returns q3 - q1 where q1 is the median of
    srt[0:idx] and q3 the median of srt[idx+1:n] when n is odd (the middle
    element left out) and of srt[idx:n] when n is even. *)
Theorem compute_iqr_split_medians (S : Series R) :
  (2 <= size S)%N ->
  let srt := sort_values S in
  let n := size S in
  let idx := (n %/ 2)%N in
  let lower := take idx srt in
  let upper := if odd n then drop idx.+1 srt else drop idx srt in
  [/\ compute_median lower = Ok (spec_median lower),
      compute_median upper = Ok (spec_median upper)
    & compute_iqr S = Ok (spec_median upper - spec_median lower)].
Proof.
move=> n_gt1 /=; have n_gt0 := ltnW n_gt1.
split; first by rewrite compute_medianE // lower_half_nonempty.
  by case: ifP => odd_n; rewrite compute_medianE //;
    apply: upper_half_nonempty; rewrite ?idx_succ_lt_odd ?idx_lt.
by rewrite compute_iqrE // /spec_iqr; case: ifP.
Qed.

(** C3: for a non-empty S with median m, compute_mad returns the median of
    the absolute deviations |x - m| of the elements of S, as it is: no
    scaling factor is applied to it. *)
Theorem compute_mad_unscaled (S : Series R) :
  S != [::] ->
  exists m : R,
    [/\ compute_median S = Ok m,
        compute_mad S = compute_median [seq `|x - m| | x <- S]
      & compute_mad S = Ok (spec_median [seq `|x - m| | x <- S])].
Proof.
move=> nz; exists (spec_median S).
rewrite compute_madE // /compute_mad compute_medianE //=; split=> //.
by rewrite compute_medianE // abs_deviations_nonempty.
Qed.

(** C4: on the empty sequence each of compute_median, compute_iqr and
    compute_mad fails: it raises (the IndexError of the positional access
    sorted_a.iloc[-1]) and returns no value. *)
Theorem empty_input_raises :
  [/\ compute_median ([::] : Series R) = Raise IndexError,
      compute_iqr ([::] : Series R) = Raise IndexError
    & compute_mad ([::] : Series R) = Raise IndexError].
Proof. by []. Qed.

(** C5 (amended): on a single-element sequence [x] compute_iqr raises
    IndexError: both halves are empty and the median of the empty lower
    half fails; no value is returned. *)
Theorem compute_iqr_single_raises (x : R) :
  [/\ iloc_to (sort_values [:: x]) 0 = [::],
      iloc_from (sort_values [:: x]) 1 = [::]
    & compute_iqr [:: x] = Raise IndexError].
Proof. by []. Qed.

(** C7: for every non-empty S, compute_mad returns a value that is not
    negative. *)
Theorem compute_mad_nonneg (S : Series R) :
  S != [::] -> exists v : R, compute_mad S = Ok v /\ 0 <= v.
Proof.
move=> nz; exists (spec_mad S); rewrite compute_madE //; split=> //.
apply: spec_median_ge; first exact: abs_deviations_nonempty.
exact: abs_deviations_ge0.
Qed.

(** C8: for a non-empty S and any permutation S' of S, compute_median
    returns the same value on S' as on S. *)
Theorem compute_median_perm (S S' : Series R) :
  S != [::] -> perm_eq S S' ->
  exists m : R, compute_median S = Ok m /\ compute_median S' = Ok m.
Proof.
move=> nz perm_S; exists (spec_median S); split; first exact: compute_medianE.
rewrite /compute_median -(sort_values_perm perm_S) -(perm_size perm_S).
exact: compute_medianE.
Qed.

(** C10: for a non-empty S, compute_mad returns a value: the deviations
    have the length of S, so both of its median computations succeed. *)
Theorem compute_mad_succeeds (S : Series R) :
  S != [::] ->
  exists m d : R,
    [/\ compute_median S = Ok m,
        size (abs_deviations S m) = size S,
        compute_median (abs_deviations S m) = Ok d
      & compute_mad S = Ok d].
Proof.
move=> nz; exists (spec_median S), (spec_mad S).
rewrite compute_madE // compute_medianE // size_abs_deviations; split=> //.
by rewrite compute_medianE // abs_deviations_nonempty.
Qed.

End EstimatorTheory.

(* ====================================================================== *)
(* Further properties: order of the input, and the two halves of the      *)
(* interquartile range.                                                   *)
(* ====================================================================== *)

(* ---------------------------------------------------------------------- *)
(* Arithmetic of the positions idx = n // 2, on plain numbers.            *)
(* ---------------------------------------------------------------------- *)

Lemma idx_odd (n : nat) : odd n -> n = ((n %/ 2) + (n %/ 2)).+1.
Proof. by move=> odd_n; rewrite -[LHS]odd_double_half odd_n divn2 addnn. Qed.

Lemma idx_even (n : nat) : ~~ odd n -> n = (n %/ 2 + n %/ 2)%N.
Proof.
by move=> even_n; rewrite -[LHS]odd_double_half (negbTE even_n) divn2 addnn.
Qed.

Ltac nat_lia :=
  try apply/ssrnat.leP;
  repeat match goal with
  | H : is_true (leq _ _) |- _ => move/ssrnat.leP: H
  | H : @eq nat _ _ |- _ => move: H
  end;
  rewrite -?plusE -?minusE -?multE; lia.

Lemma upper_start (n : nat) :
  (if odd n then (n %/ 2).+1 else (n %/ 2)%N) = (n - n %/ 2)%N.
Proof.
case: ifPn => [/idx_odd|/idx_even]; move: (n %/ 2)%N => h def_n; nat_lia.
Qed.

Lemma majority_idx_odd (n cw L H : nat) :
  odd n -> (n < 2 * cw)%N -> (L + cw <= n)%N -> (H + cw <= n)%N ->
  [/\ (n %/ 2 < n)%N, (L <= n %/ 2)%N & (H < n - n %/ 2)%N].
Proof.
move=> /idx_odd; move: (n %/ 2)%N => h def_n maj leL leH.
by split; nat_lia.
Qed.

Lemma majority_idx_even (n cw L H : nat) :
  ~~ odd n -> (n < 2 * cw)%N -> (L + cw <= n)%N -> (H + cw <= n)%N ->
  [/\ (n %/ 2 - 1 < n)%N, (L <= n %/ 2 - 1)%N & (H < n - (n %/ 2 - 1))%N]
  /\ [/\ (n %/ 2 < n)%N, (L <= n %/ 2)%N & (H < n - n %/ 2)%N].
Proof.
move=> /idx_even; move: (n %/ 2)%N => h def_n maj leL leH.
by do 2!split; nat_lia.
Qed.


Lemma idx_le_upper (n : nat) : (n %/ 2 <= n - n %/ 2)%N.
Proof.
by case: (boolP (odd n)) => [/idx_odd|/idx_even];
  move: (n %/ 2)%N => h def_n; nat_lia.
Qed.

Section EstimatorAlgebra.

Variable R : realFieldType.

Implicit Types (a b S : Series R) (s t : seq R).

(* ---------------------------------------------------------------------- *)
(* The median is the middle of the sorted values.                         *)
(* ---------------------------------------------------------------------- *)

Lemma spec_medianE S : spec_median S = middle (sort_values S).
Proof. by rewrite /spec_median /middle size_sort_values. Qed.

Lemma sort_values_id s : sorted <=%R s -> sort_values s = s.
Proof. by move=> sorted_s; rewrite /sort_values sorted_sort //; apply: le_trans. Qed.

Lemma spec_median_sorted s : sorted <=%R s -> spec_median s = middle s.
Proof. by move=> sorted_s; rewrite spec_medianE sort_values_id. Qed.

(* ---------------------------------------------------------------------- *)
(* Order of the input.                                                    *)
(* ---------------------------------------------------------------------- *)

Lemma compute_median_perm_eq S S' :
  perm_eq S S' -> compute_median S' = compute_median S.
Proof.
by move=> perm_S; rewrite /compute_median (sort_values_perm perm_S) (perm_size perm_S).
Qed.

Lemma compute_iqr_perm_eq S S' :
  perm_eq S S' -> compute_iqr S' = compute_iqr S.
Proof.
by move=> perm_S; rewrite /compute_iqr (sort_values_perm perm_S) (perm_size perm_S).
Qed.

Lemma compute_mad_perm_eq S S' :
  perm_eq S S' -> compute_mad S' = compute_mad S.
Proof.
move=> perm_S; rewrite /compute_mad (compute_median_perm_eq perm_S).
case: (compute_median S) => [m|e] //=.
exact/compute_median_perm_eq/perm_map.
Qed.

(** X4: compute_iqr does not depend on the order of the input: on a
    permutation of S (of length at least 2) it returns the value it returns
    on S. *)
Theorem compute_iqr_perm S S' :
  (2 <= size S)%N -> perm_eq S S' ->
  exists v : R, compute_iqr S = Ok v /\ compute_iqr S' = Ok v.
Proof.
move=> n_gt1 perm_S; exists (spec_iqr S).
by rewrite (compute_iqr_perm_eq perm_S) compute_iqrE.
Qed.

(** X5: compute_mad does not depend on the order of the input: on a
    permutation of a non-empty S it returns the value it returns on S. *)
Theorem compute_mad_perm S S' :
  S != [::] -> perm_eq S S' ->
  exists v : R, compute_mad S = Ok v /\ compute_mad S' = Ok v.
Proof.
move=> nz perm_S; exists (spec_mad S).
by rewrite (compute_mad_perm_eq perm_S) compute_madE.
Qed.

(* ---------------------------------------------------------------------- *)
(* The median of an odd number of values; the halves of compute_iqr.      *)
(* ---------------------------------------------------------------------- *)

(** X6: for S of odd length, compute_median returns one of the values
    of S. *)
Theorem compute_median_odd_mem S :
  odd (size S) -> exists m : R, compute_median S = Ok m /\ m \in S.
Proof.
move=> odd_n; have nz : S != [::] by case: (S) odd_n.
exists (spec_median S); rewrite compute_medianE //; split=> //.
rewrite /spec_median odd_n -(mem_sort <=%R) mem_nth //.
by rewrite size_sort idx_lt // size_gt0.
Qed.

Lemma spec_iqr_halves S :
  spec_iqr S =
  middle (drop (size S - size S %/ 2) (sort_values S))
  - middle (take (size S %/ 2) (sort_values S)).
Proof.
have sorted_S := sort_values_sorted S.
rewrite /spec_iqr -/(sort_values S) -upper_start.
rewrite (spec_median_sorted (take_sorted _ sorted_S)).
by case: ifP => _; rewrite (spec_median_sorted (drop_sorted _ sorted_S)).
Qed.

(** X13: for S of length at least 2, compute_iqr compares halves of equal
    length n // 2, the n // 2 smallest and the n // 2 largest sorted values;
    sorting them again inside compute_median changes nothing, and the result
    is the middle of the upper half minus the middle of the lower half. *)
Theorem compute_iqr_equal_halves S :
  (2 <= size S)%N ->
  let srt := sort_values S in
  let h := (size S %/ 2)%N in
  let lower := take h srt in
  let upper := drop (size S - h) srt in
  [/\ size lower = h, size upper = h,
      sort_values lower = lower, sort_values upper = upper
    & compute_iqr S = Ok (middle upper - middle lower)].
Proof.
move=> n_gt1 /=; have sorted_S := sort_values_sorted S.
have le_h : (size S %/ 2 <= size S)%N by rewrite leq_div.
split.
- by rewrite size_take_min size_sort_values (minn_idPl le_h).
- by rewrite size_drop size_sort_values subKn.
- exact/sort_values_id/take_sorted.
- exact/sort_values_id/drop_sorted.
- by rewrite compute_iqrE // spec_iqr_halves.
Qed.

End EstimatorAlgebra.

(* ====================================================================== *)
(* The estimators over the arithmetic of the dtype.                       *)
(* ====================================================================== *)

(* With exact arithmetic the two embeddings are the same functions. *)

Lemma ilocE (R : realFieldType) (a : Series R) (key : int) :
  Machine.iloc a key = iloc a key.
Proof.
rewrite /Machine.iloc /iloc; case: ifP => // /norP [].
rewrite -ltNge -leNgt; set k := absz _ => lt_key le_key.
have lt_k : (k < size a)%N.
  rewrite -ltz_nat /k; case: ifP => [key_lt0|/negbT]; last first.
    by rewrite -leNgt => /gez0_abs ->.
  have key_ge0 : 0 <= key + (size a)%:Z by rewrite -lerBlDr sub0r.
  by rewrite gez0_abs // gtrDr.
by rewrite (drop_nth 0 lt_k).
Qed.

Lemma compute_median_exact (R : realFieldType) (a : Series R) :
  Machine.compute_median (exact R) a = compute_median a.
Proof. by rewrite /Machine.compute_median /compute_median !ilocE. Qed.

Lemma compute_iqr_exact (R : realFieldType) (a : Series R) :
  Machine.compute_iqr (exact_floats R) (exact R) a = compute_iqr a.
Proof. by rewrite /Machine.compute_iqr /compute_iqr !compute_median_exact. Qed.

Lemma compute_mad_exact (R : realFieldType) (a : Series R) :
  Machine.compute_mad (exact_floats R) (exact R) a = compute_mad a.
Proof.
rewrite /Machine.compute_mad /compute_mad compute_median_exact.
by case: (compute_median a) => [m|e] //=; rewrite -compute_median_exact.
Qed.

(* The dtype of the theorems: values in any totally ordered T (a dtype
   without missing values), float64 results in any partially ordered F, and
   any arithmetic on them: no law of +, - or / is assumed, what is needed of
   them is a check on the Series at hand (averages_within,
   differences_signed). *)

Section MachineTheory.

Variables (dT dF : Order.disp_t) (T : orderType dT) (F : porderType dF).
Variables (add_ : T -> T -> T) (div2_ float_ : T -> F) (subf_ : T -> F -> F).
Variables (fadd_ : F -> F -> F) (fdiv2_ : F -> F) (fsub_ : F -> F -> F).
Variables (fabs_ : F -> F) (fzero_ : F).

Let D := Machine.Dtype <=%O add_ div2_ float_ subf_.
Let fl := Machine.Floats <=%O fadd_ fdiv2_ fsub_ fabs_ fzero_.

Implicit Types (a S s : seq T) (x y z lo hi : T).

Lemma m_iloc_nat z a (k : nat) :
  (k < size a)%N -> Machine.iloc a k%:Z = Ok (nth z a k).
Proof.
move=> lt_k; rewrite /Machine.iloc lez_nat leqNgt lt_k /=.
by rewrite (ltez_natE, ltz_nat k 0) (drop_nth z lt_k).
Qed.

Lemma m_iloc_pred z a (k : nat) :
  (0 < k)%N -> (k <= size a)%N ->
  Machine.iloc a (k%:Z - 1) = Ok (nth z a (k - 1)).
Proof.
case: k => [//|k] _ lt_k.
by rewrite -addn1 PoszD addrK addnK (m_iloc_nat z).
Qed.

Lemma m_sorted S : sorted <=%O (Machine.sort_values D S).
Proof. exact: (sort_sorted (@le_total _ T)). Qed.

Lemma m_size_sort S : size (Machine.sort_values D S) = size S.
Proof. exact: size_sort. Qed.

Lemma m_mem_sort S : Machine.sort_values D S =i S.
Proof. exact: mem_sort. Qed.

Lemma m_sorted_nth z s (i j : nat) :
  sorted <=%O s -> (i <= j)%N -> (j < size s)%N -> (nth z s i <= nth z s j)%O.
Proof.
move=> sorted_s le_ij lt_j.
apply: (sorted_leq_nth (@le_trans _ T) (@lexx _ T)) => //.
by rewrite inE (leq_ltn_trans le_ij).
Qed.

Lemma m_compute_medianE z S :
  S != [::] ->
  Machine.compute_median D S = Ok (Machine.middle D z (Machine.sort_values D S)).
Proof.
move=> nz; have n_gt0 : (0 < size S)%N by case: (S) nz.
rewrite /Machine.compute_median /Machine.middle m_size_sort modn2 eqb1.
case: ifPn => [_|even_n].
  by rewrite (m_iloc_nat z) ?m_size_sort ?idx_lt.
rewrite (m_iloc_pred z) ?m_size_sort ?idx_gt0_even ?leq_div //.
by rewrite (m_iloc_nat z) ?m_size_sort ?idx_lt.
Qed.

(* ---------------------------------------------------------------------- *)
(* Consequences of the check on the averages.                             *)
(* ---------------------------------------------------------------------- *)

Lemma averages_withinP S x y :
  Machine.averages_within fl D S -> x \in S -> y \in S -> (x <= y)%O ->
  (float_ x <= Machine.avg D x y)%O /\ (Machine.avg D x y <= float_ y)%O.
Proof.
move=> /allrelP aw x_S y_S le_xy; have /= := aw x y x_S y_S.
by rewrite le_xy => /andP.
Qed.

Lemma float_mono_on S x y :
  Machine.averages_within fl D S -> x \in S -> y \in S -> (x <= y)%O ->
  (float_ x <= float_ y)%O.
Proof.
by move=> aw x_S y_S le_xy; have [/le_trans] := averages_withinP aw x_S y_S le_xy; apply.
Qed.

Lemma avg_diag S x :
  Machine.averages_within fl D S -> x \in S -> Machine.avg D x x = float_ x.
Proof.
move=> aw x_S; have [le1 le2] := averages_withinP aw x_S x_S (lexx x).
by apply/le_anti; rewrite le1 le2.
Qed.

Lemma middle_between S z s :
  Machine.averages_within fl D S -> {subset s <= S} ->
  sorted <=%O s -> s != [::] ->
  (float_ (nth z s (size s %/ 2 - 1)) <= Machine.middle D z s)%O
  /\ (Machine.middle D z s <= float_ (nth z s (size s %/ 2)))%O.
Proof.
move=> aw sub_s sorted_s nz; have n_gt0 : (0 < size s)%N by case: (s) nz.
have lt_h := idx_lt n_gt0.
have lt_h1 : (size s %/ 2 - 1 < size s)%N by rewrite (leq_ltn_trans (leq_subr _ _)).
have le_ab := m_sorted_nth z sorted_s (leq_subr 1 _) lt_h.
have a_S := sub_s _ (mem_nth z lt_h1); have b_S := sub_s _ (mem_nth z lt_h).
rewrite /Machine.middle; case: ifP => _.
  by split; rewrite ?lexx //; apply: (float_mono_on aw).
exact: averages_withinP aw a_S b_S le_ab.
Qed.

Lemma middle_le S z s hi :
  Machine.averages_within fl D S -> {subset s <= S} ->
  sorted <=%O s -> s != [::] -> hi \in S -> all (fun x => x <= hi)%O s ->
  (Machine.middle D z s <= float_ hi)%O.
Proof.
move=> aw sub_s sorted_s nz hi_S /allP le_hi.
have [_ /le_trans] := middle_between z aw sub_s sorted_s nz; apply.
have b_s : nth z s (size s %/ 2) \in s.
  by rewrite mem_nth // idx_lt //; case: (s) nz.
by apply: (float_mono_on aw) => //; [apply: sub_s | apply: le_hi].
Qed.

Lemma middle_ge S z s lo :
  Machine.averages_within fl D S -> {subset s <= S} ->
  sorted <=%O s -> s != [::] -> lo \in S -> all (fun x => lo <= x)%O s ->
  (float_ lo <= Machine.middle D z s)%O.
Proof.
move=> aw sub_s sorted_s nz lo_S /allP lo_le.
have [le_mid _] := middle_between z aw sub_s sorted_s nz; apply: le_trans le_mid.
have a_s : nth z s (size s %/ 2 - 1) \in s.
  rewrite mem_nth // (leq_ltn_trans (leq_subr _ _)) // idx_lt //.
  by case: (s) nz.
by apply: (float_mono_on aw) => //; [apply: sub_s | apply: lo_le].
Qed.

Lemma middle_average S z s :
  Machine.averages_within fl D S -> {subset s <= S} -> s != [::] ->
  Machine.middle D z s \in Machine.averages D S.
Proof.
move=> aw sub_s nz; have n_gt0 : (0 < size s)%N by case: (s) nz.
have lt_h := idx_lt n_gt0.
have lt_h1 : (size s %/ 2 - 1 < size s)%N by rewrite (leq_ltn_trans (leq_subr _ _)).
have a_S := sub_s _ (mem_nth z lt_h1); have b_S := sub_s _ (mem_nth z lt_h).
rewrite /Machine.middle; case: ifP => _ /=; last exact: allpairs_f.
by rewrite -(avg_diag aw b_S); apply: allpairs_f.
Qed.

(* ---------------------------------------------------------------------- *)
(* Minimum and maximum.                                                   *)
(* ---------------------------------------------------------------------- *)

Lemma seq_min_in x s : Machine.seq_min D x s \in x :: s.
Proof.
elim: s => [|y s IHs] /=; first exact: mem_head.
by case: ifP => _; rewrite !inE ?eqxx ?orbT //; move: IHs; rewrite inE => /orP [->|->]; rewrite ?orbT.
Qed.

Lemma seq_max_in x s : Machine.seq_max D x s \in x :: s.
Proof.
elim: s => [|y s IHs] /=; first exact: mem_head.
by case: ifP => _; rewrite !inE ?eqxx ?orbT //; move: IHs; rewrite inE => /orP [->|->]; rewrite ?orbT.
Qed.

Lemma seq_min_le x s : all (fun y => Machine.seq_min D x s <= y)%O (x :: s).
Proof.
apply/allP => y; elim: s => [|w s IHs] /=; first by rewrite inE => /eqP ->.
rewrite -/(Machine.seq_min D x s) !inE orbCA -in_cons.
case: (leP w (Machine.seq_min D x s)) => [le_w|lt_w] /orP [/eqP ->|/IHs] //.
- by move=> /(le_trans le_w).
- exact: ltW.
Qed.

Lemma seq_max_ge x s : all (fun y => y <= Machine.seq_max D x s)%O (x :: s).
Proof.
apply/allP => y; elim: s => [|w s IHs] /=; first by rewrite inE => /eqP ->.
rewrite -/(Machine.seq_max D x s) !inE orbCA -in_cons.
case: (leP w (Machine.seq_max D x s)) => [le_w|lt_w] /orP [/eqP ->|/IHs] //.
by move=> /le_trans; apply; apply: ltW.
Qed.

(** C9 (amended): for a non-empty S on which no average of two values
    leaves the interval they span (for all x <= y in S the computed
    (x + y) / 2 lies between float(x) and float(y): no sum wraps around or
    overflows), compute_median returns a value between float(min(S)) and
    float(max(S)). *)
Theorem compute_median_between_no_overflow x s :
  Machine.averages_within fl D (x :: s) ->
  exists m : F,
    Machine.compute_median D (x :: s) = Ok m
    /\ (float_ (Machine.seq_min D x s) <= m <= float_ (Machine.seq_max D x s))%O.
Proof.
move=> aw; exists (Machine.middle D x (Machine.sort_values D (x :: s))).
rewrite (m_compute_medianE x) //; split=> //.
have sub_s : {subset Machine.sort_values D (x :: s) <= x :: s}.
  by move=> y; rewrite m_mem_sort.
have nz : Machine.sort_values D (x :: s) != [::].
  by rewrite -size_eq0 m_size_sort.
apply/andP; split.
  apply: (middle_ge x aw sub_s) => //; first exact: m_sorted.
    exact: seq_min_in.
  by rewrite all_sort seq_min_le.
apply: (middle_le x aw sub_s) => //; first exact: m_sorted.
  exact: seq_max_in.
by rewrite all_sort seq_max_ge.
Qed.

(* ---------------------------------------------------------------------- *)
(* The two halves of compute_iqr.                                         *)
(* ---------------------------------------------------------------------- *)

Lemma m_lower_nonempty S :
  (1 < size S)%N -> take (size S %/ 2) (Machine.sort_values D S) != [::].
Proof.
move=> n_gt1; rewrite -size_eq0 size_take_min m_size_sort.
by rewrite (minn_idPl (leq_div _ _)) -lt0n divn2 half_gt0.
Qed.

Lemma m_upper_nonempty S :
  (1 < size S)%N ->
  drop (size S - size S %/ 2) (Machine.sort_values D S) != [::].
Proof.
move=> n_gt1; rewrite -size_eq0 size_drop m_size_sort subn_eq0 -ltnNge.
by rewrite ltn_subrL divn2 half_gt0 n_gt1 (ltnW n_gt1).
Qed.

Lemma m_sub_take S (k : nat) : {subset take k (Machine.sort_values D S) <= S}.
Proof. by move=> x /mem_take; rewrite m_mem_sort. Qed.

Lemma m_sub_drop S (k : nat) : {subset drop k (Machine.sort_values D S) <= S}.
Proof. by move=> x /mem_drop; rewrite m_mem_sort. Qed.

Lemma m_compute_median_sorted z s :
  sorted <=%O s -> s != [::] ->
  Machine.compute_median D s = Ok (Machine.middle D z s).
Proof.
move=> sorted_s nz; rewrite (m_compute_medianE z nz) /Machine.sort_values.
by rewrite sorted_sort //; apply: le_trans.
Qed.

Lemma m_compute_iqrE z S :
  (1 < size S)%N ->
  Machine.compute_iqr fl D S =
  Ok (fsub_
        (Machine.middle D z (drop (size S - size S %/ 2) (Machine.sort_values D S)))
        (Machine.middle D z (take (size S %/ 2) (Machine.sort_values D S)))).
Proof.
move=> n_gt1; have sorted_S := m_sorted S.
have lowerE :=
  m_compute_median_sorted z (take_sorted _ sorted_S) (m_lower_nonempty n_gt1).
have upperE :=
  m_compute_median_sorted z (drop_sorted _ sorted_S) (m_upper_nonempty n_gt1).
rewrite /Machine.compute_iqr m_size_sort modn2 eqb1 -/(Machine.sort_values D S).
by rewrite lowerE /=; move: upperE; rewrite -upper_start; case: ifP => _ ->.
Qed.

Lemma m_take_le z s (j : nat) :
  sorted <=%O s -> (0 < j)%N -> (j <= size s)%N ->
  all (fun x => x <= nth z s (j - 1))%O (take j s).
Proof.
move=> sorted_s j_gt0 le_j; apply/(all_nthP z) => i.
rewrite size_take_min (minn_idPl le_j) => lt_i.
rewrite nth_take //; apply: m_sorted_nth => //.
  by rewrite subn1 -ltnS prednK.
by rewrite (leq_trans _ le_j) // subn1 prednK.
Qed.

Lemma m_drop_ge z s (k : nat) :
  sorted <=%O s -> all (fun x => nth z s k <= x)%O (drop k s).
Proof.
move=> sorted_s; apply/(all_nthP z) => i; rewrite size_drop ltn_subRL => lt_i.
by rewrite nth_drop; apply: m_sorted_nth => //; apply: leq_addr.
Qed.

Lemma quartiles_bracket z S :
  Machine.averages_within fl D S -> (1 < size S)%N ->
  let srt := Machine.sort_values D S in
  [/\ (Machine.middle D z (take (size S %/ 2) srt)
         <= float_ (nth z srt (size S %/ 2 - 1)))%O,
      (float_ (nth z srt (size S %/ 2 - 1)) <= Machine.middle D z srt)%O,
      (Machine.middle D z srt <= float_ (nth z srt (size S %/ 2)))%O,
      (float_ (nth z srt (size S %/ 2))
         <= float_ (nth z srt (size S - size S %/ 2)))%O
    & (float_ (nth z srt (size S - size S %/ 2))
         <= Machine.middle D z (drop (size S - size S %/ 2) srt))%O].
Proof.
move=> aw n_gt1 /=; have n_gt0 := ltnW n_gt1.
have sorted_S := m_sorted S.
have idx_gt0 : (0 < size S %/ 2)%N by rewrite divn2 half_gt0.
have lt_h : (size S %/ 2 < size (Machine.sort_values D S))%N.
  by rewrite m_size_sort idx_lt.
have lt_h1 : (size S %/ 2 - 1 < size (Machine.sort_values D S))%N.
  by rewrite (leq_ltn_trans (leq_subr _ _)).
have lt_k : (size S - size S %/ 2 < size (Machine.sort_values D S))%N.
  by rewrite m_size_sort ltn_subrL idx_gt0.
have in_S (i : nat) :
    (i < size (Machine.sort_values D S))%N ->
    nth z (Machine.sort_values D S) i \in S.
  by move=> lt_i; rewrite -m_mem_sort mem_nth.
have nz : Machine.sort_values D S != [::] by rewrite -size_eq0 m_size_sort -lt0n.
have sub_S : {subset Machine.sort_values D S <= S} by move=> x; rewrite m_mem_sort.
have := middle_between z aw sub_S sorted_S nz; rewrite m_size_sort => -[lo_m m_hi].
split=> //.
- apply: (middle_le z aw (@m_sub_take S _)) (in_S _ lt_h1) _.
  + exact: take_sorted.
  + exact: m_lower_nonempty.
  + by apply: m_take_le; rewrite ?m_size_sort ?leq_div.
- apply: (float_mono_on aw); rewrite ?in_S //.
  by apply: m_sorted_nth => //; apply: idx_le_upper.
- apply: (middle_ge z aw (@m_sub_drop S _)) (in_S _ lt_k) _.
  + exact: drop_sorted.
  + exact: m_upper_nonempty.
  + exact: m_drop_ge.
Qed.

(** C6 (amended): for S of length at least 2 on which no average of two
    values leaves the interval they span and the difference of two such
    averages has the sign of their order, compute_iqr returns a value that
    is not negative. *)
Theorem compute_iqr_nonneg_no_overflow S :
  (2 <= size S)%N ->
  Machine.averages_within fl D S -> Machine.differences_signed fl D S ->
  exists v : F, Machine.compute_iqr fl D S = Ok v /\ (fzero_ <= v)%O.
Proof.
case: S => [//|z S] n_gt1 aw /allrelP signed.
rewrite (m_compute_iqrE z n_gt1); eexists; split; first by [].
have [le_q1 le_m m_le le_k le_q3] := quartiles_bracket z aw n_gt1.
have le_q := le_trans le_q1 (le_trans le_m (le_trans m_le (le_trans le_k le_q3))).
have q1_avg := middle_average z aw (@m_sub_take (z :: S) _) (m_lower_nonempty n_gt1).
have q3_avg := middle_average z aw (@m_sub_drop (z :: S) _) (m_upper_nonempty n_gt1).
by have /= := signed _ _ q1_avg q3_avg; rewrite le_q.
Qed.

(** X16: for S of length at least 2 on which no average of two values
    leaves the interval they span, the medians q1 and q3 of the two halves
    that compute_iqr subtracts lie on either side of the median of S:
    q1 <= m <= q3. *)
Theorem compute_quartiles_bracket_no_overflow S :
  (2 <= size S)%N -> Machine.averages_within fl D S ->
  let srt := Machine.sort_values D S in
  let h := (size S %/ 2)%N in
  exists q1 m q3 : F,
    [/\ Machine.compute_median D (take h srt) = Ok q1,
        Machine.compute_median D S = Ok m,
        Machine.compute_median D (drop (size S - h) srt) = Ok q3,
        Machine.compute_iqr fl D S = Ok (fsub_ q3 q1) & (q1 <= m <= q3)%O].
Proof.
case: S => [//|z S] n_gt1 aw /=; have sorted_S := m_sorted (z :: S).
have [le_q1 le_m m_le le_k le_q3] := quartiles_bracket z aw n_gt1.
exists (Machine.middle D z (take (size (z :: S) %/ 2) (Machine.sort_values D (z :: S)))),
  (Machine.middle D z (Machine.sort_values D (z :: S))),
  (Machine.middle D z (drop (size (z :: S) - size (z :: S) %/ 2)
                         (Machine.sort_values D (z :: S)))).
split.
- exact: m_compute_median_sorted (take_sorted _ sorted_S) (m_lower_nonempty n_gt1).
- exact: m_compute_medianE.
- exact: m_compute_median_sorted (drop_sorted _ sorted_S) (m_upper_nonempty n_gt1).
- exact: m_compute_iqrE.
- by rewrite (le_trans le_q1 le_m) (le_trans m_le (le_trans le_k le_q3)).
Qed.

(* ---------------------------------------------------------------------- *)
(* Counting values against the sorted positions.                          *)
(* ---------------------------------------------------------------------- *)

Lemma m_count_down (P : pred T) z s (i : nat) :
  (forall x y, (x <= y)%O -> P y -> P x) ->
  sorted <=%O s -> (i < size s)%N -> P (nth z s i) -> (i < count P s)%N.
Proof.
move=> downP sorted_s lt_i Pi.
have all_lo : all P (take i.+1 s).
  apply/(all_nthP z) => j; rewrite size_take_min => /leq_trans /(_ (geq_minl _ _)).
  rewrite ltnS => le_ji; rewrite nth_take //.
  exact: downP (m_sorted_nth z sorted_s le_ji lt_i) Pi.
have := count_cat P (take i.+1 s) (drop i.+1 s); rewrite cat_take_drop => ->.
move: all_lo; rewrite all_count => /eqP ->.
by rewrite size_take_min (minn_idPl lt_i) leq_addr.
Qed.

Lemma m_count_up (Q : pred T) z s (i : nat) :
  (forall x y, (x <= y)%O -> Q x -> Q y) ->
  sorted <=%O s -> (i < size s)%N -> Q (nth z s i) ->
  (size s - i <= count Q s)%N.
Proof.
move=> upQ sorted_s lt_i Qi.
have all_hi : all Q (drop i s).
  apply/(all_nthP z) => j; rewrite size_drop ltn_subRL => lt_j.
  rewrite nth_drop; apply: upQ Qi; apply: m_sorted_nth => //.
  exact: leq_addr.
have := count_cat Q (take i s) (drop i s); rewrite cat_take_drop => ->.
move: all_hi; rewrite all_count => /eqP ->.
by rewrite size_drop leq_addl.
Qed.

Lemma m_count_disjoint (P Q : pred T) s :
  (forall x, P x -> ~~ Q x) -> (count P s + count Q s <= size s)%N.
Proof.
move=> disj; rewrite -count_predUI.
have /eq_count -> : predI P Q =1 pred0.
  by move=> x /=; apply/negbTE/negP => /andP [/disj /negP].
by rewrite count_pred0 addn0 count_size.
Qed.

Lemma m_sorted_within z lo hi s (i : nat) :
  sorted <=%O s -> (i < size s)%N ->
  (count (fun x => x < lo)%O s <= i)%N ->
  (count (fun x => hi < x)%O s < size s - i)%N ->
  (lo <= nth z s i <= hi)%O.
Proof.
move=> sorted_s lt_i leL ltH; apply/andP; split.
  rewrite leNgt; apply/negP => lt_lo.
  have down x y : (x <= y)%O -> (y < lo)%O -> (x < lo)%O by exact: le_lt_trans.
  by have := m_count_down down sorted_s lt_i lt_lo; rewrite ltnNge leL.
rewrite leNgt; apply/negP => hi_lt.
have up x y : (x <= y)%O -> (hi < x)%O -> (hi < y)%O.
  by move=> le_xy /lt_le_trans; apply.
by have := m_count_up up sorted_s lt_i hi_lt; rewrite leqNgt ltH.
Qed.

Section MonotoneFloat.

Hypothesis float_homo : {homo float_ : x y / (x <= y)%O}.

(* With more than half of s within [lo, hi], the positions the median
   reads hold values within [lo, hi], and the median lies between them. *)
Lemma m_middle_pinch S z lo hi s :
  Machine.averages_within fl D (Machine.within D lo hi S) ->
  {subset s <= S} -> sorted <=%O s ->
  (size s < 2 * Machine.count_within D lo hi s)%N ->
  exists i j : nat,
    [/\ (i <= j)%N, (j < size s)%N, (lo <= nth z s i)%O & (nth z s j <= hi)%O]
    /\ (float_ (nth z s i) <= Machine.middle D z s <= float_ (nth z s j))%O.
Proof.
move=> aw sub_s sorted_s maj.
have leL : (count (fun x => x < lo)%O s + Machine.count_within D lo hi s
              <= size s)%N.
  by apply: m_count_disjoint => x lt_x /=; rewrite leNgt lt_x.
have leH : (count (fun x => hi < x)%O s + Machine.count_within D lo hi s
              <= size s)%N.
  by apply: m_count_disjoint => x lt_x /=; rewrite [(x <= hi)%O]leNgt lt_x andbF.
rewrite /Machine.middle; case: ifPn => [odd_n|even_n] /=.
  have [lt_h Lh Hh] := majority_idx_odd odd_n maj leL leH.
  have /andP [lo_x x_hi] := m_sorted_within z sorted_s lt_h Lh Hh.
  by exists (size s %/ 2)%N, (size s %/ 2)%N; rewrite lexx.
have [[lt_h1 Lh1 Hh1] [lt_h Lh Hh]] := majority_idx_even even_n maj leL leH.
have /andP [lo_a a_hi] := m_sorted_within z sorted_s lt_h1 Lh1 Hh1.
have /andP [lo_b b_hi] := m_sorted_within z sorted_s lt_h Lh Hh.
have le_ab := m_sorted_nth z sorted_s (leq_subr 1 _) lt_h.
have a_S : nth z s (size s %/ 2 - 1) \in Machine.within D lo hi S.
  by rewrite mem_filter /= lo_a a_hi sub_s // mem_nth.
have b_S : nth z s (size s %/ 2) \in Machine.within D lo hi S.
  by rewrite mem_filter /= lo_b b_hi sub_s // mem_nth.
have [le1 le2] := averages_withinP aw a_S b_S le_ab.
exists (size s %/ 2 - 1)%N, (size s %/ 2)%N; rewrite le1 le2.
by split=> //; split=> //; apply: leq_subr.
Qed.

Lemma m_middle_within S z lo hi s :
  Machine.averages_within fl D (Machine.within D lo hi S) ->
  {subset s <= S} -> sorted <=%O s ->
  (size s < 2 * Machine.count_within D lo hi s)%N ->
  (float_ lo <= Machine.middle D z s <= float_ hi)%O.
Proof.
move=> aw sub_s sorted_s maj.
have [i [j [[_ _ lo_a b_hi] /andP [le1 le2]]]] :=
  m_middle_pinch z aw sub_s sorted_s maj.
by rewrite (le_trans (float_homo lo_a) le1) (le_trans le2 (float_homo b_hi)).
Qed.

(** X7: when more than half of the values of S lie within [lo, hi], float()
    is monotone and no average of two values within [lo, hi] leaves the
    interval they span, compute_median returns a value between float(lo)
    and float(hi), wherever the other values are. *)
Theorem compute_median_majority_no_overflow lo hi S :
  (size S < 2 * Machine.count_within D lo hi S)%N ->
  Machine.averages_within fl D (Machine.within D lo hi S) ->
  exists m : F,
    Machine.compute_median D S = Ok m /\ (float_ lo <= m <= float_ hi)%O.
Proof.
case: S => [//|z S] maj aw; rewrite (m_compute_medianE z) //.
eexists; split; first by [].
apply: (m_middle_within z aw) (m_sorted _) _; first by move=> x; rewrite m_mem_sort.
by rewrite m_size_sort /Machine.count_within count_sort.
Qed.





End MonotoneFloat.

End MachineTheory.

(* ---------------------------------------------------------------------- *)
(* Runs on rational samples.                                              *)
(* ---------------------------------------------------------------------- *)

Remark mad_scale_one (R : realFieldType) (mad_c : Series R -> R -> result R)
  (a : Series R) : mad mad_c a = mad_c a 1.
Proof. by []. Qed.

(* The worked examples of section 8 of the specification. *)

Example median_12345 :
  compute_median (sample [:: 1; 2; 3; 4; 5]%N) = Ok 3%:R.
Proof. by vm_compute. Qed.

Example iqr_12345 : compute_iqr (sample [:: 1; 2; 3; 4; 5]%N) = Ok 3%:R.
Proof. by vm_compute. Qed.

Example mad_12345 : compute_mad (sample [:: 1; 2; 3; 4; 5]%N) = Ok 1.
Proof. by vm_compute. Qed.

Example median_1234 :
  compute_median (sample [:: 1; 2; 3; 4]%N) = Ok (5%:R / 2%:R).
Proof. by vm_compute. Qed.

Example iqr_1234 : compute_iqr (sample [:: 1; 2; 3; 4]%N) = Ok 2%:R.
Proof. by vm_compute. Qed.

Example median_7 : compute_median (sample [:: 7]%N) = Ok 7%:R.
Proof. by vm_compute. Qed.

Example mad_7 : compute_mad (sample [:: 7]%N) = Ok 0.
Proof. by vm_compute. Qed.

Example iqr_7 : compute_iqr (sample [:: 7]%N) = Raise IndexError.
Proof. by vm_compute. Qed.

(* An unsorted input, and a negative key of iloc. *)

Example median_unsorted :
  compute_median (sample [:: 5; 1; 4; 2]%N) = Ok 3%:R.
Proof. by vm_compute. Qed.

Example iloc_last : iloc (sample [:: 5; 1; 4]%N) (- 1) = Ok 4%:R.
Proof. by vm_compute. Qed.

Example iloc_out_of_bounds :
  iloc (sample [:: 5; 1; 4]%N) 3 = Raise IndexError
  /\ iloc (sample [:: 5; 1; 4]%N) (- 4%:Z) = Raise IndexError.
Proof. by vm_compute. Qed.

(* C1 at S = [5, 1, 4, 2]. *)
Lemma compute_median_sorted_middle_witness :
  let S := sample [:: 5; 1; 4; 2]%N in
  let srt := sort_values S in
  [/\ sorted <=%R srt, perm_eq srt S
    & compute_median S =
      Ok (if odd 4 then nth 0 srt 2 else (nth 0 srt (2 - 1) + nth 0 srt 2) / 2%:R)].
Proof. exact: (@compute_median_sorted_middle _ (sample [:: 5; 1; 4; 2]%N) isT). Defined.

(* C2 at S = [9, 1, 4, 2, 7]. *)
Lemma compute_iqr_split_medians_witness :
  let S := sample [:: 9; 1; 4; 2; 7]%N in
  let lower := take 2 (sort_values S) in
  let upper := drop 3 (sort_values S) in
  [/\ compute_median lower = Ok (spec_median lower),
      compute_median upper = Ok (spec_median upper)
    & compute_iqr S = Ok (spec_median upper - spec_median lower)].
Proof. exact: (@compute_iqr_split_medians _ (sample [:: 9; 1; 4; 2; 7]%N) isT). Defined.

(* C3 at S = [1, 2, 3, 4, 5]. *)
Lemma compute_mad_unscaled_witness :
  let S := sample [:: 1; 2; 3; 4; 5]%N in
  exists m : rat,
    [/\ compute_median S = Ok m,
        compute_mad S = compute_median [seq `|x - m| | x <- S]
      & compute_mad S = Ok (spec_median [seq `|x - m| | x <- S])].
Proof. exact: (@compute_mad_unscaled _ (sample [:: 1; 2; 3; 4; 5]%N) isT). Defined.

(* C5: the specification's own example, S = [7]. *)
Lemma compute_iqr_single_not_zero : compute_iqr (sample [:: 7]%N) <> Ok 0.
Proof. by rewrite /sample /= compute_iqr_singleton. Qed.

(* C7 at S = [9, 1, 4, 2]. *)
Lemma compute_mad_nonneg_witness :
  exists v : rat, compute_mad (sample [:: 9; 1; 4; 2]%N) = Ok v /\ 0 <= v.
Proof. exact: (@compute_mad_nonneg _ (sample [:: 9; 1; 4; 2]%N) isT). Defined.

(* C8 at S = [9, 1, 4] and S' = [4, 9, 1]. *)
Lemma compute_median_perm_witness :
  perm_eq (sample [:: 9; 1; 4]%N) (sample [:: 4; 9; 1]%N)
  /\ exists m : rat,
       compute_median (sample [:: 9; 1; 4]%N) = Ok m
       /\ compute_median (sample [:: 4; 9; 1]%N) = Ok m.
Proof.
have perm_S : perm_eq (sample [:: 9; 1; 4]%N) (sample [:: 4; 9; 1]%N).
  by vm_compute.
by split=> //; apply: (compute_median_perm (S := sample [:: 9; 1; 4]%N)).
Defined.

(* C10 at S = [9, 1, 4, 2]. *)
Lemma compute_mad_succeeds_witness :
  let S := sample [:: 9; 1; 4; 2]%N in
  exists m d : rat,
    [/\ compute_median S = Ok m,
        size (abs_deviations S m) = size S,
        compute_median (abs_deviations S m) = Ok d
      & compute_mad S = Ok d].
Proof. exact: (@compute_mad_succeeds _ (sample [:: 9; 1; 4; 2]%N) isT). Defined.

(* ---------------------------------------------------------------------- *)
(* Runs of the further properties.                                        *)
(* ---------------------------------------------------------------------- *)

(* One huge value among five: the median and the MAD stay with the other
   four, the IQR does not. *)

Example median_outlier :
  compute_median (sample [:: 1000; 2; 3; 1; 2]%N) = Ok 2%:R.
Proof. by vm_compute. Qed.

Example mad_outlier :
  compute_mad (sample [:: 1000; 2; 3; 1; 2]%N) = Ok 1.
Proof. by vm_compute. Qed.

Example iqr_outlier :
  compute_iqr (sample [:: 1000; 2; 3; 1; 2]%N) = Ok 500%:R.
Proof. by vm_compute. Qed.

(* X4 at S = [9, 1, 4, 2] and S' = [2, 9, 4, 1]. *)
Lemma compute_iqr_perm_witness :
  exists v : rat,
    compute_iqr (sample [:: 9; 1; 4; 2]%N) = Ok v
    /\ compute_iqr (sample [:: 2; 9; 4; 1]%N) = Ok v.
Proof.
have perm_S : perm_eq (sample [:: 9; 1; 4; 2]%N) (sample [:: 2; 9; 4; 1]%N).
  by vm_compute.
exact: (compute_iqr_perm (S := sample [:: 9; 1; 4; 2]%N) isT perm_S).
Defined.

(* X5 at S = [9, 1, 4, 2] and S' = [2, 9, 4, 1]. *)
Lemma compute_mad_perm_witness :
  exists v : rat,
    compute_mad (sample [:: 9; 1; 4; 2]%N) = Ok v
    /\ compute_mad (sample [:: 2; 9; 4; 1]%N) = Ok v.
Proof.
have perm_S : perm_eq (sample [:: 9; 1; 4; 2]%N) (sample [:: 2; 9; 4; 1]%N).
  by vm_compute.
exact: (compute_mad_perm (S := sample [:: 9; 1; 4; 2]%N) isT perm_S).
Defined.

(* X6 at S = [9, 1, 4]. *)
Lemma compute_median_odd_mem_witness :
  exists m : rat,
    compute_median (sample [:: 9; 1; 4]%N) = Ok m
    /\ m \in sample [:: 9; 1; 4]%N.
Proof. exact: (@compute_median_odd_mem _ (sample [:: 9; 1; 4]%N) isT). Defined.

(* X13 at S = [9, 1, 4, 2, 7]. *)
Lemma compute_iqr_equal_halves_witness :
  let S := sample [:: 9; 1; 4; 2; 7]%N in
  let lower := take 2 (sort_values S) in
  let upper := drop (5 - 2) (sort_values S) in
  [/\ size lower = 2, size upper = 2,
      sort_values lower = lower, sort_values upper = upper
    & compute_iqr S = Ok (middle upper - middle lower)].
Proof.
exact: (@compute_iqr_equal_halves _ (sample [:: 9; 1; 4; 2; 7]%N) isT).
Defined.

(* ---------------------------------------------------------------------- *)
(* Runs in the arithmetic of uint8 and of float64.                        *)
(* ---------------------------------------------------------------------- *)

(* 200 + 100 wraps around to 44 in uint8. *)
Example uint8_median_wraps :
  Machine.compute_median uint8 [:: 200; 100]%N = Ok 22%:R.
Proof. by vm_compute. Qed.

Example uint8_iqr_wraps :
  Machine.compute_iqr uint8_floats uint8 [:: 200; 100; 200; 100]%N
  = Ok (- 28%:R).
Proof. by vm_compute. Qed.

Example uint8_mad :
  Machine.compute_mad uint8_floats uint8 [:: 200; 100; 7]%N = Ok 93%:R.
Proof. by vm_compute. Qed.

(* 1e308 + 1e308 overflows to infinity in float64. *)
Example float64_median_overflows :
  Machine.compute_median binary64 [:: 1e308; 1e308]%float = Ok infinity.
Proof. by vm_compute. Qed.

Example float64_iqr_overflows :
  Machine.compute_iqr ieee binary64 [:: 1e308; 1e308; 1e308; 1e308]%float
  = Ok nan.
Proof. by vm_compute. Qed.

Example float64_mad_overflows :
  Machine.compute_mad ieee binary64 [:: 1e308; 1e308]%float = Ok infinity.
Proof. by vm_compute. Qed.

(* On ordinary prices the checks on the averages and on the differences
   pass. *)
Example float64_no_overflow_checks :
  Machine.averages_within ieee binary64 [:: 101.5; 99.25; 100.1; 98.7]%float
  && Machine.differences_signed ieee binary64
       [:: 101.5; 99.25; 100.1; 98.7]%float.
Proof. by vm_compute. Qed.

(* A missing value is sorted last. *)
Example float64_median_nan_last :
  Machine.compute_median binary64 [:: 3; nan; 1; 2]%float = Ok 2.5%float.
Proof. by vm_compute. Qed.

Lemma uint8_float_homo :
  {homo Machine.to_float uint8 : x y / (x <= y)%O}.
Proof. by move=> x y /=; rewrite ler_nat. Qed.

(* C6: no value on [7]; a negative value on the uint8 Series
   [200, 100, 200, 100], whose upper median wraps around; not a number on
   the float64 Series [1e308, 1e308, 1e308, 1e308]. *)
Lemma compute_iqr_negative_or_none :
  [/\ ~ (exists v : rat,
           Machine.compute_iqr uint8_floats uint8 [:: 7]%N = Ok v /\ 0 <= v),
      ~ (exists v : rat,
           Machine.compute_iqr uint8_floats uint8 [:: 200; 100; 200; 100]%N
           = Ok v /\ 0 <= v)
    & Machine.compute_iqr ieee binary64 [:: 1e308; 1e308; 1e308; 1e308]%float
      = Ok nan
      /\ PrimFloat.leb 0 nan = false].
Proof.
split; last by vm_compute.
  by case=> v [].
by case=> v []; rewrite uint8_iqr_wraps => -[<-].
Qed.

(* C6 at the uint8 Series [100, 20, 30, 10]. *)
Lemma compute_iqr_nonneg_no_overflow_witness :
  exists v : rat,
    Machine.compute_iqr uint8_floats uint8 [:: 100; 20; 30; 10]%N = Ok v
    /\ 0 <= v.
Proof.
have aw : Machine.averages_within uint8_floats uint8 [:: 100; 20; 30; 10]%N.
  by vm_compute.
have ds : Machine.differences_signed uint8_floats uint8 [:: 100; 20; 30; 10]%N.
  by vm_compute.
exact: (compute_iqr_nonneg_no_overflow (S := [:: 100; 20; 30; 10]%N) isT aw ds).
Defined.

(* C9: on the uint8 Series [200, 100] the median is 22, below the minimum
   100; on the float64 Series [1e308, 1e308] it is infinity, above the
   maximum. *)
Lemma compute_median_outside_range :
  ~ (exists m : rat,
       Machine.compute_median uint8 [:: 200; 100]%N = Ok m
       /\ (Machine.to_float uint8 (Machine.seq_min uint8 200 [:: 100])%N <= m
           <= Machine.to_float uint8 (Machine.seq_max uint8 200 [:: 100])%N))
  /\ (Machine.compute_median binary64 [:: 1e308; 1e308]%float = Ok infinity
      /\ PrimFloat.leb infinity 1e308 = false).
Proof.
split; last by vm_compute.
by case=> m []; rewrite uint8_median_wraps => -[<-]; vm_compute.
Qed.

(* C9 at the uint8 Series [100, 20, 30, 10]. *)
Lemma compute_median_between_no_overflow_witness :
  exists m : rat,
    Machine.compute_median uint8 [:: 100; 20; 30; 10]%N = Ok m
    /\ (Machine.to_float uint8 (Machine.seq_min uint8 100 [:: 20; 30; 10])%N
        <= m
        <= Machine.to_float uint8 (Machine.seq_max uint8 100 [:: 20; 30; 10])%N).
Proof.
have aw : Machine.averages_within uint8_floats uint8 [:: 100; 20; 30; 10]%N.
  by vm_compute.
exact: compute_median_between_no_overflow aw.
Defined.

(* X7 at the uint8 Series [250, 20, 30, 10, 20] and [lo, hi] = [10, 30]:
   the sums with 250 wrap around, those within [10, 30] do not. *)
Lemma compute_median_majority_no_overflow_witness :
  exists m : rat,
    Machine.compute_median uint8 [:: 250; 20; 30; 10; 20]%N = Ok m
    /\ 10%:R <= m <= 30%:R.
Proof.
have maj :
  (size [:: 250; 20; 30; 10; 20]%N
   < 2 * Machine.count_within uint8 10 30 [:: 250; 20; 30; 10; 20]%N)%N.
  by vm_compute.
have aw : Machine.averages_within uint8_floats uint8
            (Machine.within uint8 10 30 [:: 250; 20; 30; 10; 20]%N).
  by vm_compute.
exact: (compute_median_majority_no_overflow uint8_float_homo maj aw).
Defined.


(* X16 at the uint8 Series [90, 10, 40, 20, 70]. *)
Lemma compute_quartiles_bracket_no_overflow_witness :
  let S := [:: 90; 10; 40; 20; 70]%N in
  exists q1 m q3 : rat,
    [/\ Machine.compute_median uint8 (take 2 (Machine.sort_values uint8 S))
        = Ok q1,
        Machine.compute_median uint8 S = Ok m,
        Machine.compute_median uint8
          (drop (5 - 2) (Machine.sort_values uint8 S)) = Ok q3,
        Machine.compute_iqr uint8_floats uint8 S = Ok (q3 - q1)
      & q1 <= m <= q3].
Proof.
have aw : Machine.averages_within uint8_floats uint8 [:: 90; 10; 40; 20; 70]%N.
  by vm_compute.
exact: (compute_quartiles_bracket_no_overflow
          (S := [:: 90; 10; 40; 20; 70]%N) isT aw).
Defined.
